(** * A shallow embedding of the ECS registry of [main.cpp]

    The registry keeps, for every component type, one vector of
    (entity identifier, component) pairs in a function-local static.  The
    embedding threads the family of those vectors through every operation
    as an explicit [Store]; iterators and component pointers are positions
    in the vector they point into. *)

From Stdlib Require Import ZArith NArith QArith Qabs SpecFloat.
From stdpp Require Import base decidable option numbers list.

Set Default Proof Using "Type*".

(** ** [struct Entity] *)

Module Entity.
(** [using IDType = std::uint32_t]: identifiers are only ever compared
    with [==], so they are kept as naturals; every 32-bit value is one. *)
Definition IDType : Type := N.

Record t : Type := mk { id : IDType }.
End Entity.

(** ** The two standard algorithms and the one vector method the registry uses *)

Module Std.
Section Algorithms.
Context {A : Type}.

(** [std::ranges::find_if]: the position of the first element that
    satisfies [pred], and [length l] (the [end()] iterator) if none. *)
Fixpoint find_if (pred : A → bool) (l : list A) : nat :=
  match l with
  | [] => 0
  | a :: l' => if pred a then 0 else S (find_if pred l')
  end.

(** [std::erase_if] on a vector: every element that satisfies [pred]
    is dropped and the others are shifted down over the holes. *)
Fixpoint erase_if (pred : A → bool) (l : list A) : list A :=
  match l with
  | [] => []
  | a :: l' => if pred a then erase_if pred l' else a :: erase_if pred l'
  end.

(** [std::vector::emplace_back]. *)
Definition emplace_back (l : list A) (a : A) : list A := l ++ [a].
End Algorithms.
End Std.

(** ** [class ECS] *)

Module ECS.
Import Std.

Section Registry.
(** [Ty] names the component types the program instantiates the
    templates at and [El T] is the C++ type named by [T]. *)
Context {Ty : Type} `{EqDecision Ty} {El : Ty → Type}.

Definition EntityComponentPair (T : Ty) : Type := (Entity.IDType * El T)%type.
Definition EntityComponentList (T : Ty) : Type := list (EntityComponentPair T).

(** A [Component*] handed out by the registry: the slot of [T]'s vector
    whose [second] it addresses. *)
Definition ComponentPtr : Type := nat.

(** All the [static EntityComponentList<Component> instance] objects. *)
Definition Store : Type := ∀ T : Ty, EntityComponentList T.

(** Every [instance{}] starts out empty. *)
Definition init : Store := λ _, [].

Definition matchEntity {T : Ty} (entityID : Entity.IDType)
    (pair : EntityComponentPair T) : bool :=
  N.eqb pair.1 entityID.

(** [get<Component>()] returns a reference to [T]'s vector: [get] reads
    through it and [put] writes through it. *)
Definition get (T : Ty) (s : Store) : EntityComponentList T := s T.

Definition put (T : Ty) (components : EntityComponentList T) (s : Store) : Store :=
  λ T', match decide (T = T') with
        | left e => eq_rect T EntityComponentList components T' e
        | right _ => s T'
        end.

Definition addComponentToEntity (T : Ty) (entityID : Entity.IDType)
    (component : El T) (s : Store) : Store :=
  let components := get T s in
  if find_if (matchEntity entityID) components =? length components
  then put T (emplace_back components (entityID, component)) s
  else s.

Definition removeComponentFromEntity (T : Ty) (entityID : Entity.IDType)
    (s : Store) : Store :=
  put T (erase_if (matchEntity entityID) (get T s)) s.

Definition entityHasComponent (T : Ty) (entityID : Entity.IDType)
    (s : Store) : bool :=
  let components := get T s in
  negb (find_if (matchEntity entityID) components =? length components).

Definition getComponentOfEntity (T : Ty) (entityID : Entity.IDType)
    (s : Store) : option ComponentPtr :=
  let components := get T s in
  let it := find_if (matchEntity entityID) components in
  if negb (it =? length components) then Some it else None.

(** Reading the component a pointer addresses ([*p]). *)
Definition deref (T : Ty) (p : ComponentPtr) (s : Store) : option (El T) :=
  snd <$> get T s !! p.

Definition getComponentsView (T : Ty) (s : Store) : list ComponentPtr :=
  imap (λ i _, i) (get T s).

Definition getEntityIDsWithComponentView (T : Ty) (s : Store)
    : list Entity.IDType :=
  fst <$> get T s.

(** [SystemConcept<System, Args...>]: a system names its component type
    and is callable on a component of that type and the arguments; the
    call's effect on the [Component&] is the component it returns. *)
Record SystemConcept (Args : Type) : Type := {
  ComponentType : Ty;
  call : El ComponentType → Args → El ComponentType
}.
#[global] Arguments ComponentType {Args} _.
#[global] Arguments call {Args} _ _ _.

Definition applySystem {Args : Type} (System : SystemConcept Args)
    (entityID : Entity.IDType) (args : Args) (s : Store) : Store :=
  let Component := ComponentType System in
  let components := get Component s in
  let it := find_if (matchEntity entityID) components in
  if negb (it =? length components)
  then put Component
         (alter (λ pair, (pair.1, call System pair.2 args)) it components) s
  else s.

(** The value [getComponentOfEntity] leads to, read at once. *)
Definition readComponentOfEntity (T : Ty) (entityID : Entity.IDType)
    (s : Store) : option (El T) :=
  getComponentOfEntity T entityID s ≫= λ p, deref T p s.

(** One call of the registry's mutating interface, and a caller that
    makes a sequence of them. *)
Inductive Call : Type :=
| CallAdd (T : Ty) (entityID : Entity.IDType) (component : El T)
| CallRemove (T : Ty) (entityID : Entity.IDType)
| CallApply {Args : Type} (System : SystemConcept Args)
    (entityID : Entity.IDType) (args : Args).

Definition step (s : Store) (c : Call) : Store :=
  match c with
  | CallAdd T entityID component => addComponentToEntity T entityID component s
  | CallRemove T entityID => removeComponentFromEntity T entityID s
  | CallApply System entityID args => applySystem System entityID args s
  end.

Definition run (cs : list Call) (s : Store) : Store := foldl step s cs.

(** The component type a call is instantiated at. *)
Definition target (c : Call) : Ty :=
  match c with
  | CallAdd T _ _ => T
  | CallRemove T _ => T
  | CallApply System _ _ => ComponentType System
  end.

(** The records of [T]'s vector that belong to [entityID]. *)
Definition recordsOf (T : Ty) (entityID : Entity.IDType) (s : Store)
    : EntityComponentList T :=
  filter (λ pair, pair.1 = entityID) (get T s).
End Registry.

#[global] Arguments EntityComponentPair {Ty} El T.
#[global] Arguments EntityComponentList {Ty} El T.
#[global] Arguments Store {Ty} El.
#[global] Arguments SystemConcept {Ty} El Args.
#[global] Arguments Call {Ty} El.
End ECS.

(** ** [float]: IEEE 754 binary32, round to nearest even *)

Module Float32.
Definition prec : Z := 24.
Definition emax : Z := 128.

Definition float : Type := spec_float.

Definition add : float → float → float := SFadd prec emax.
Definition sub : float → float → float := SFsub prec emax.
Definition mul : float → float → float := SFmul prec emax.
Definition div : float → float → float := SFdiv prec emax.

(** The [float] an integer literal such as [2.0f] denotes. *)
Definition of_Z (n : Z) : float := binary_normalize prec emax n 0 false.

(** The literals of [main.cpp] that are not integers, each the binary32
    number nearest to the decimal written. *)
Definition lit_0_016 : float := S754_finite false 8589935 (-29).
Definition lit_9_81 : float := S754_finite false 10286531 (-20).

(** The rational a finite [float] denotes. *)
Definition to_Q (f : float) : option Q :=
  match f with
  | S754_zero _ => Some 0%Q
  | S754_finite s m e => Some (inject_Z (cond_Zopp s (Z.pos m)) * 2 ^ e)%Q
  | S754_infinity _ | S754_nan => None
  end.

(** [f] is finite and lies strictly within [tol] of [q]. *)
Definition within (tol q : Q) (f : float) : Prop :=
  match to_Q f with
  | Some v => (Qabs (v - q) < tol)%Q
  | None => False
  end.
End Float32.

(** ** The component and system types of [main.cpp] *)

Module Position.
Record t : Type := mk { x : Float32.float; y : Float32.float }.
End Position.

(** The types of [main.cpp] that satisfy [ComponentConcept]. *)
Inductive ComponentTypes : Type := TPosition | TEntity.

#[global] Instance ComponentTypes_eq_dec : EqDecision ComponentTypes.
Proof. solve_decision. Defined.

Definition ComponentOf (T : ComponentTypes) : Type :=
  match T with
  | TPosition => Position.t
  | TEntity => Entity.t
  end.

Definition MoveSystem : ECS.SystemConcept ComponentOf Float32.float := {|
  ECS.ComponentType := TPosition;
  ECS.call := λ (position : ComponentOf TPosition) dt,
    let x' := Float32.add (Position.x position) (Float32.mul (Float32.of_Z 1) dt) in
    let y' := Float32.add (Position.y position) (Float32.mul (Float32.of_Z 1) dt) in
    Position.mk x' y'
|}.

Definition GravitySystem : ECS.SystemConcept ComponentOf Float32.float := {|
  ECS.ComponentType := TPosition;
  ECS.call := λ (position : ComponentOf TPosition) dt,
    let y' := Float32.sub (Position.y position) (Float32.mul Float32.lit_9_81 dt) in
    Position.mk (Position.x position) y'
|}.

(** The statics of the program when [main] starts. *)
Definition main_init : ECS.Store ComponentOf := ECS.init.

(** The calls [main] makes before it first applies [MoveSystem] to
    entity 1, and the four additions of its second block. *)
Definition main_setup : list (ECS.Call ComponentOf) :=
  [ ECS.CallAdd TPosition 1%N (Position.mk (Float32.of_Z 0) (Float32.of_Z 0));
    ECS.CallRemove TPosition 1%N;
    ECS.CallAdd TPosition 1%N (Position.mk (Float32.of_Z 2) (Float32.of_Z 3)) ].

Definition main_four : list (ECS.Call ComponentOf) :=
  [ ECS.CallAdd TPosition 2%N (Position.mk (Float32.of_Z 5) (Float32.of_Z 5));
    ECS.CallAdd TPosition 3%N (Position.mk (Float32.of_Z 10) (Float32.of_Z 10));
    ECS.CallAdd TPosition 4%N (Position.mk (Float32.of_Z 15) (Float32.of_Z 15));
    ECS.CallAdd TPosition 5%N (Position.mk (Float32.of_Z 20) (Float32.of_Z 20)) ].

(** * Properties *)

(** ** The algorithms *)

Module StdFacts.
Import Std.

Section Algorithms.
Context {A : Type}.
Implicit Types (pred : A → bool) (l : list A).

Lemma find_if_le pred l : find_if pred l ≤ length l.
Proof. induction l as [|a l IH]; simpl; [lia|]. destruct (pred a); simpl; lia. Qed.

(** At a position before the end the predicate holds. *)
Lemma find_if_lt_lookup pred l :
  find_if pred l < length l →
  ∃ a, l !! find_if pred l = Some a ∧ pred a = true.
Proof.
  induction l as [|a l IH]; simpl; [lia|].
  destruct (pred a) eqn:Ha; simpl; [eauto|].
  intros Hlt. apply IH. lia.
Qed.

(** Nothing before the position found satisfies the predicate. *)
Lemma find_if_first pred l i a :
  i < find_if pred l → l !! i = Some a → pred a = false.
Proof.
  revert i. induction l as [|b l IH]; simpl; [lia|].
  destruct (pred b) eqn:Hb; [lia|].
  intros [|i] Hi; simpl; [congruence|]. apply IH. lia.
Qed.

(** The end iterator comes back exactly when no element matches. *)
Lemma find_if_end pred l :
  find_if pred l = length l ↔ Forall (λ a, pred a = false) l.
Proof.
  induction l as [|a l IH]; simpl; [by split; [constructor|]|].
  destruct (pred a) eqn:Ha; split.
  - discriminate.
  - intros H. apply Forall_cons in H as [H _]. congruence.
  - intros [=Hl]. constructor; [done|]. by apply IH.
  - intros H. apply Forall_cons in H as [_ H]. f_equal. by apply IH.
Qed.

Lemma find_if_app_end pred l a :
  find_if pred l = length l → pred a = true →
  find_if pred (l ++ [a]) = length l.
Proof.
  induction l as [|b l IH]; simpl; intros Hl Ha; [by rewrite Ha|].
  destruct (pred b); [done|]. f_equal. apply IH; [lia|done].
Qed.

(** The first match stops the search, whatever follows it. *)
Lemma find_if_app_hit pred l a l' :
  find_if pred l = length l → pred a = true →
  find_if pred (l ++ a :: l') = length l.
Proof.
  induction l as [|b l IH]; simpl; intros Hl Ha; [by rewrite Ha|].
  destruct (pred b); [done|]. f_equal. apply IH; [lia|done].
Qed.

Lemma find_if_ext pred (pred' : A → bool) l (l' : list A) :
  Forall2 (λ a a', pred a = pred' a') l l' →
  find_if pred l = find_if pred' l'.
Proof.
  induction 1 as [|a a' l l' Ha _ IH]; simpl; [done|].
  rewrite <- Ha. destruct (pred a); [done|]. by f_equal.
Qed.

Lemma erase_if_filter pred l :
  erase_if pred l = filter (λ a, pred a = false) l.
Proof.
  induction l as [|a l IH]; simpl; [done|].
  rewrite filter_cons, <- IH.
  destruct (pred a) eqn:Ha; case_decide; congruence.
Qed.

Lemma erase_if_none pred l :
  Forall (λ a, pred a = false) l → erase_if pred l = l.
Proof.
  induction 1 as [|a l Ha _ IH]; simpl; [done|]. rewrite Ha. by f_equal.
Qed.

Lemma erase_if_app pred l1 l2 :
  erase_if pred (l1 ++ l2) = erase_if pred l1 ++ erase_if pred l2.
Proof.
  induction l1 as [|a l1 IH]; simpl; [done|].
  destruct (pred a); simpl; by rewrite IH.
Qed.

Lemma erase_if_sublist pred l : erase_if pred l `sublist_of` l.
Proof.
  induction l as [|a l IH]; simpl; [constructor|].
  destruct (pred a); by constructor.
Qed.

(** Updating the slot at [end()] (or beyond) touches nothing. *)
Lemma alter_ge (f : A → A) l i : length l ≤ i → alter f i l = l.
Proof.
  intros Hle. apply list_eq. intros j. rewrite list_lookup_alter.
  case_decide as Hij; [|done]. subst j.
  by rewrite (lookup_ge_None_2 l i Hle).
Qed.

Lemma erase_if_Forall pred l : Forall (λ a, pred a = false) (erase_if pred l).
Proof.
  induction l as [|a l IH]; simpl; [constructor|].
  destruct (pred a) eqn:Ha; [done|]. by constructor.
Qed.
End Algorithms.
End StdFacts.

(** ** The registry *)

Module ECSFacts.
Import Std StdFacts ECS.

(** The type aliases of the class stand in the way of rewriting with
    lemmas about lists. *)
Ltac unalias := unfold EntityComponentList, EntityComponentPair in *.

Section Registry.
Context {Ty : Type} `{EqDecision Ty} {El : Ty → Type}.
Implicit Types (T : Ty) (s : Store El) (E : Entity.IDType).

(** *** The statics are independent objects *)

Lemma get_put_eq T (components : EntityComponentList El T) s :
  get T (put T components s) = components.
Proof.
  unfold get, put. destruct (decide (T = T)) as [e|]; [|done].
  by rewrite (proof_irrel e eq_refl).
Qed.

Lemma get_put_ne T T' (components : EntityComponentList El T) s :
  T ≠ T' → get T' (put T components s) = get T' s.
Proof. intros Hne. unfold get, put. by destruct (decide (T = T')). Qed.

Lemma get_put_same T T' s : get T' (put T (get T s) s) = get T' s.
Proof.
  destruct (decide (T = T')) as [<-|Hne];
    [apply get_put_eq | by apply get_put_ne].
Qed.

(** *** Which position [find_if] returns *)

Lemma matchEntity_true T E (pair : EntityComponentPair El T) :
  matchEntity E pair = true ↔ pair.1 = E.
Proof. unfold matchEntity. apply N.eqb_eq. Qed.

Lemma matchEntity_false T E (pair : EntityComponentPair El T) :
  matchEntity E pair = false ↔ pair.1 ≠ E.
Proof. unfold matchEntity. apply N.eqb_neq. Qed.

Lemma find_if_absent T E (l : EntityComponentList El T) :
  find_if (matchEntity E) l = length l ↔ E ∉ l.*1.
Proof.
  rewrite find_if_end, Forall_forall, list_elem_of_fmap. split.
  - intros Hl (pair & -> & Hin). specialize (Hl _ Hin).
    by apply matchEntity_false in Hl.
  - intros Hl pair Hin. apply matchEntity_false. intros <-.
    apply Hl. eauto.
Qed.

Lemma find_if_present T E (l : EntityComponentList El T) :
  find_if (matchEntity E) l ≠ length l →
  ∃ c, l !! find_if (matchEntity E) l = Some (E, c).
Proof.
  intros Hne. pose proof (find_if_le (matchEntity E) l) as Hle.
  destruct (find_if_lt_lookup (matchEntity E) l) as ([E' c] & Hl & Hm);
    [lia|].
  apply matchEntity_true in Hm. simpl in Hm. subst E'. eauto.
Qed.

(** *** What each operation does to the vector of its own type *)

Lemma entityHasComponent_elem_of T E s :
  entityHasComponent T E s = true ↔ E ∈ getEntityIDsWithComponentView T s.
Proof.
  unfold entityHasComponent, getEntityIDsWithComponentView. simpl.
  rewrite negb_true_iff, Nat.eqb_neq, find_if_absent.
  split; [apply dec_stable | tauto].
Qed.

Lemma add_absent T E (c : El T) s :
  E ∉ getEntityIDsWithComponentView T s →
  addComponentToEntity T E c s = put T (get T s ++ [(E, c)]) s.
Proof.
  intros Hnot. apply find_if_absent in Hnot.
  unfold addComponentToEntity, emplace_back. simpl.
  by rewrite Hnot, Nat.eqb_refl.
Qed.

Lemma add_present T E (c : El T) s :
  E ∈ getEntityIDsWithComponentView T s →
  addComponentToEntity T E c s = s.
Proof.
  intros Hin. unfold addComponentToEntity. simpl.
  destruct (Nat.eqb_spec (find_if (matchEntity E) (get T s)) (length (get T s)))
    as [Hend|]; [|done].
  by apply find_if_absent in Hend.
Qed.

Lemma get_add_other T T' E (c : El T) s :
  T ≠ T' → get T' (addComponentToEntity T E c s) = get T' s.
Proof.
  intros Hne. unfold addComponentToEntity. simpl.
  destruct (_ =? _); [by apply get_put_ne | done].
Qed.

Lemma get_remove T E s :
  get T (removeComponentFromEntity T E s) = erase_if (matchEntity E) (get T s).
Proof. apply get_put_eq. Qed.

Lemma get_remove_other T T' E s :
  T ≠ T' → get T' (removeComponentFromEntity T E s) = get T' s.
Proof. intros Hne. by apply get_put_ne. Qed.

Lemma ids_erase_if T E (l : EntityComponentList El T) :
  E ∉ (erase_if (matchEntity E) l).*1.
Proof.
  rewrite list_elem_of_fmap. intros (pair & -> & Hin).
  pose proof (erase_if_Forall (matchEntity pair.1) l) as Hall.
  rewrite Forall_forall in Hall. specialize (Hall _ Hin).
  by apply matchEntity_false in Hall.
Qed.

Lemma erase_if_absent T E (l : EntityComponentList El T) :
  E ∉ l.*1 → erase_if (matchEntity E) l = l.
Proof. intros Hnot. by apply erase_if_none, find_if_end, find_if_absent. Qed.

Lemma apply_absent {Args} (System : SystemConcept El Args) E args s :
  E ∉ getEntityIDsWithComponentView (ComponentType System) s →
  applySystem System E args s = s.
Proof.
  intros Hnot. apply find_if_absent in Hnot.
  unfold applySystem. simpl. by rewrite Hnot, Nat.eqb_refl.
Qed.

Lemma get_apply {Args} (System : SystemConcept El Args) E args s :
  get (ComponentType System) (applySystem System E args s) =
  alter (λ pair, (pair.1, call System pair.2 args))
    (find_if (matchEntity E) (get (ComponentType System) s))
    (get (ComponentType System) s).
Proof.
  unfold applySystem. simpl.
  destruct (Nat.eqb_spec (find_if (matchEntity E) (get (ComponentType System) s))
              (length (get (ComponentType System) s))) as [Hend|Hne]; simpl.
  - rewrite Hend. symmetry. apply alter_ge. lia.
  - apply get_put_eq.
Qed.

Lemma get_apply_other {Args} (System : SystemConcept El Args) T E args s :
  ComponentType System ≠ T → get T (applySystem System E args s) = get T s.
Proof.
  intros Hne. unfold applySystem. simpl.
  destruct (negb _); [by apply get_put_ne | done].
Qed.

Lemma ids_apply {Args} (System : SystemConcept El Args) T E args s :
  getEntityIDsWithComponentView T (applySystem System E args s) =
  getEntityIDsWithComponentView T s.
Proof.
  unfold getEntityIDsWithComponentView.
  destruct (decide (ComponentType System = T)) as [<-|Hne];
    [|by rewrite get_apply_other].
  rewrite get_apply. apply list_eq. intros i. unalias.
  rewrite !list_lookup_fmap, list_lookup_alter.
  case_decide as Hi; [|done]. rewrite Hi. by destruct (_ !! i).
Qed.

Lemma get_add T E (c : El T) s :
  get T (addComponentToEntity T E c s) =
  if decide (E ∈ getEntityIDsWithComponentView T s)
  then get T s else get T s ++ [(E, c)].
Proof.
  case_decide as Hin.
  - by rewrite add_present.
  - rewrite add_absent by done. apply get_put_eq.
Qed.

Lemma get_step_other (c : Call El) T s :
  target c ≠ T → get T (step s c) = get T s.
Proof.
  destruct c as [T0 E c|T0 E|Args System E args]; simpl; intros Hne.
  - by apply get_add_other.
  - by apply get_remove_other.
  - by apply get_apply_other.
Qed.

(** *** No call gives an entity a second record *)

Lemma step_NoDup (c : Call El) T s :
  NoDup (getEntityIDsWithComponentView T s) →
  NoDup (getEntityIDsWithComponentView T (step s c)).
Proof.
  intros Hs. destruct (decide (target c = T)) as [<-|Hne];
    [|unfold getEntityIDsWithComponentView; by rewrite get_step_other].
  destruct c as [T0 E c|T0 E|Args System E args]; simpl.
  - unfold getEntityIDsWithComponentView at 1. rewrite get_add.
    case_decide as Hin; [done|]. rewrite fmap_app. apply NoDup_app.
    split; [done|]. split; [|apply NoDup_singleton].
    intros E' HE' ->%list_elem_of_singleton. done.
  - unfold getEntityIDsWithComponentView at 1. rewrite get_remove.
    apply (sublist_NoDup _ _ Hs), fmap_sublist, erase_if_sublist.
  - by rewrite ids_apply.
Qed.

Lemma run_NoDup (cs : list (Call El)) T s :
  NoDup (getEntityIDsWithComponentView T s) →
  NoDup (getEntityIDsWithComponentView T (run cs s)).
Proof.
  revert s. induction cs as [|c cs IH]; intros s Hs; simpl; [done|].
  by apply IH, step_NoDup.
Qed.

(** *** Looking an entity up *)

(** The position found depends on the identifiers only. *)
Lemma find_if_ids T E (l : EntityComponentList El T) :
  find_if (matchEntity E) l = find_if (λ E', N.eqb E' E) l.*1.
Proof.
  induction l as [|pair l IH]; simpl; [done|].
  unfold matchEntity at 1. destruct (N.eqb _ _); [done|]. by f_equal.
Qed.

Lemma getComponentOfEntity_ids T E s s' :
  getEntityIDsWithComponentView T s' = getEntityIDsWithComponentView T s →
  getComponentOfEntity T E s' = getComponentOfEntity T E s.
Proof.
  unfold getEntityIDsWithComponentView, getComponentOfEntity. simpl.
  intros Hids. rewrite !find_if_ids, Hids.
  assert (length (get T s') = length (get T s)) as ->; [|done].
  unalias. by rewrite <- (length_fmap fst (get T s')), Hids, length_fmap.
Qed.

Lemma getComponentOfEntity_Some T E s p :
  getComponentOfEntity T E s = Some p →
  ∃ c, get T s !! p = Some (E, c).
Proof.
  unfold getComponentOfEntity. simpl.
  destruct (Nat.eqb_spec (find_if (matchEntity E) (get T s)) (length (get T s)))
    as [|Hne]; simpl; [done|].
  intros [= <-]. by apply find_if_present.
Qed.

Lemma getComponentOfEntity_None T E s :
  getComponentOfEntity T E s = None ↔ E ∉ getEntityIDsWithComponentView T s.
Proof.
  unfold getComponentOfEntity, getEntityIDsWithComponentView. simpl.
  rewrite <- find_if_absent.
  destruct (Nat.eqb_spec (find_if (matchEntity E) (get T s)) (length (get T s)));
    simpl; split; done.
Qed.

Lemma readComponentOfEntity_Some T E s p c :
  getComponentOfEntity T E s = Some p →
  get T s !! p = Some (E, c) →
  readComponentOfEntity T E s = Some c.
Proof.
  intros Hp Hl. unfold readComponentOfEntity, deref. rewrite Hp. simpl.
  unalias. by rewrite Hl.
Qed.

Lemma filter_absent T E (l : list (Entity.IDType * El T)) :
  E ∉ l.*1 → filter (λ pair, pair.1 = E) l = [].
Proof.
  induction l as [|pair l IH]; [done|].
  rewrite fmap_cons, not_elem_of_cons. intros [Hne Hnot].
  rewrite filter_cons_False by (simpl; congruence). by apply IH.
Qed.

Lemma getComponentOfEntity_find_if T E s p :
  getComponentOfEntity T E s = Some p →
  p = find_if (matchEntity E) (get T s).
Proof.
  unfold getComponentOfEntity. simpl. destruct (negb _); congruence.
Qed.

(** The system is applied in place: the pointer the lookup returns is
    the same before and after, and what it addresses afterwards is the
    result of the call on what it addressed before. *)
Lemma get_apply_same {Args} (System : SystemConcept El Args) E args s :
  getComponentOfEntity (ComponentType System) E (applySystem System E args s) =
  getComponentOfEntity (ComponentType System) E s.
Proof. apply getComponentOfEntity_ids, ids_apply. Qed.

Lemma read_apply {Args} (System : SystemConcept El Args) E args s :
  readComponentOfEntity (ComponentType System) E (applySystem System E args s) =
  (λ c, call System c args) <$> readComponentOfEntity (ComponentType System) E s.
Proof.
  unfold readComponentOfEntity. rewrite get_apply_same.
  destruct (getComponentOfEntity _ E s) as [p|] eqn:Hp; simpl; [|done].
  apply getComponentOfEntity_find_if in Hp. subst p.
  unfold deref. rewrite get_apply. unalias.
  rewrite list_lookup_alter_eq. by destruct (_ !! _).
Qed.

Lemma ids_add T E (c : El T) s :
  getEntityIDsWithComponentView T (addComponentToEntity T E c s) =
  if decide (E ∈ getEntityIDsWithComponentView T s)
  then getEntityIDsWithComponentView T s
  else getEntityIDsWithComponentView T s ++ [E].
Proof.
  unfold getEntityIDsWithComponentView at 1. rewrite get_add.
  case_decide; [done|]. by rewrite fmap_app.
Qed.

(** A vector whose last record is the only one of [E]. *)
Lemma lookup_last_record T E (c : El T) (l : EntityComponentList El T) s :
  get T s = l ++ [(E, c)] → E ∉ l.*1 →
  getComponentOfEntity T E s = Some (length l) ∧
  readComponentOfEntity T E s = Some c ∧
  recordsOf T E s = [(E, c)].
Proof.
  intros Hs Hnot.
  assert (find_if (matchEntity E) (get T s) = length l) as Hit.
  { rewrite Hs. apply find_if_app_end; [by apply find_if_absent|].
    by apply matchEntity_true. }
  assert (getComponentOfEntity T E s = Some (length l)) as Hp.
  { unfold getComponentOfEntity. simpl. rewrite Hit, Hs, length_app. simpl.
    destruct (Nat.eqb_spec (length l) (length l + 1)); [lia|done]. }
  split; [done|]. split.
  - apply (readComponentOfEntity_Some _ _ _ _ _ Hp).
    rewrite Hs. unalias. by rewrite lookup_app_r, Nat.sub_diag.
  - unfold recordsOf. rewrite Hs. unalias.
    rewrite filter_app, filter_cons, filter_nil. simpl.
    rewrite decide_True by done.
    by rewrite filter_absent.
Qed.

(** The first record of [E] in the middle of a vector: the lookup leads to
    its slot and to its component. *)
Lemma lookup_middle_record T E (c : El T)
    (l1 l2 : list (Entity.IDType * El T)) s :
  get T s = l1 ++ (E, c) :: l2 → E ∉ l1.*1 →
  find_if (matchEntity E) (get T s) = length l1 ∧
  getComponentOfEntity T E s = Some (length l1) ∧
  readComponentOfEntity T E s = Some c.
Proof.
  intros Hs Hnot.
  assert (find_if (matchEntity E) (get T s) = length l1) as Hit.
  { rewrite Hs. apply find_if_app_hit; [by apply find_if_absent|].
    by apply matchEntity_true. }
  assert (getComponentOfEntity T E s = Some (length l1)) as Hp.
  { unfold getComponentOfEntity. cbn zeta. rewrite Hit, Hs, length_app.
    cbn [length].
    destruct (Nat.eqb_spec (length l1) (length l1 + S (length l2))); [lia|done]. }
  split; [done|]. split; [done|].
  apply (readComponentOfEntity_Some _ _ _ _ _ Hp).
  rewrite Hs. unalias. by rewrite lookup_app_r, Nat.sub_diag.
Qed.

(** Adding components for entities that are all new and all different
    lists them after the old ones, in the order of the calls. *)
Lemma ids_add_list T (adds : list (Entity.IDType * El T)) s :
  NoDup (getEntityIDsWithComponentView T s ++ adds.*1) →
  getEntityIDsWithComponentView T
    (run ((λ pair, CallAdd T pair.1 pair.2) <$> adds) s) =
  getEntityIDsWithComponentView T s ++ adds.*1.
Proof.
  revert s. induction adds as [|[E c] adds IH]; intros s Hnd.
  - simpl. by rewrite app_nil_r.
  - rewrite !fmap_cons in *. cbn [fst snd] in *.
    change (run (?call :: ?calls) s) with (run calls (step s call)).
    cbn [step].
    assert (E ∉ getEntityIDsWithComponentView T s) as Hnot.
    { apply NoDup_app in Hnd as (_ & Hdisj & _). intros Hin.
      apply (Hdisj _ Hin), list_elem_of_here. }
    assert (getEntityIDsWithComponentView T (addComponentToEntity T E c s) =
            getEntityIDsWithComponentView T s ++ [E]) as Hadd
      by (by rewrite ids_add, decide_False).
    rewrite IH, Hadd, <- app_assoc; [done|].
    by rewrite Hadd, <- app_assoc.
Qed.
End Registry.
End ECSFacts.

(** * The registry's contract *)

Module Spec.
Import Std StdFacts ECS ECSFacts.

Section Registry.
Context {Ty : Type} `{EqDecision Ty} {El : Ty → Type}.
Implicit Types (T : Ty) (s : Store El) (E : Entity.IDType).

(** C1.  Adding a component for [E] to a vector that holds none for [E]
    and then adding another one: the second call leaves the store as it
    is, the vector holds the single record [(E, c1)] for [E], and the
    lookup of [E] leads to [c1]. *)
Theorem add_twice_keeps_first T E (c1 c2 : El T) s :
  E ∉ getEntityIDsWithComponentView T s →
  let s1 := addComponentToEntity T E c1 s in
  let s2 := addComponentToEntity T E c2 s1 in
  s2 = s1 ∧
  recordsOf T E s2 = [(E, c1)] ∧
  readComponentOfEntity T E s2 = Some c1.
Proof.
  intros Hnot s1 s2.
  assert (get T s1 = get T s ++ [(E, c1)]) as Hs1.
  { subst s1. rewrite add_absent by done. apply get_put_eq. }
  assert (s2 = s1) as ->.
  { subst s2. apply add_present. unfold getEntityIDsWithComponentView.
    rewrite Hs1, fmap_app. apply elem_of_app. right. simpl. apply list_elem_of_here. }
  split; [done|].
  by destruct (lookup_last_record T E c1 (get T s) s1 Hs1 Hnot) as (_ & ? & ?).
Qed.

(** C3.  [entityHasComponent] answers [true] exactly when
    [getComponentOfEntity] returns an optional that holds a pointer. *)
Theorem has_iff_get_nonempty T E s :
  entityHasComponent T E s = true ↔ is_Some (getComponentOfEntity T E s).
Proof.
  rewrite entityHasComponent_elem_of, <- not_eq_None_Some,
    getComponentOfEntity_None.
  split; [tauto | apply dec_stable].
Qed.

(** C4.  Add, remove, add again, from any store: the vector ends with
    the single record [(E, c2)] for [E] and the lookup leads to [c2]. *)
Theorem add_remove_add_replaces T E (c1 c2 : El T) s :
  let s1 := addComponentToEntity T E c1 s in
  let s2 := removeComponentFromEntity T E s1 in
  let s3 := addComponentToEntity T E c2 s2 in
  recordsOf T E s3 = [(E, c2)] ∧
  readComponentOfEntity T E s3 = Some c2.
Proof.
  intros s1 s2 s3.
  assert (E ∉ getEntityIDsWithComponentView T s2) as Hnot.
  { unfold getEntityIDsWithComponentView. subst s2.
    rewrite get_remove. apply ids_erase_if. }
  assert (get T s3 = get T s2 ++ [(E, c2)]) as Hs3.
  { subst s3. rewrite add_absent by done. apply get_put_eq. }
  by destruct (lookup_last_record T E c2 (get T s2) s3 Hs3 Hnot) as (_ & ? & ?).
Qed.

(** C5.  When [T]'s vector holds no record for [E]: removing [E]'s
    component and applying a system of component type [T] to [E] both
    leave every vector of the store as it was, and the lookup returns
    the empty optional. *)
Theorem absent_is_noop T E s :
  E ∉ getEntityIDsWithComponentView T s →
  (∀ T', get T' (removeComponentFromEntity T E s) = get T' s) ∧
  (∀ Args (System : SystemConcept El Args) (args : Args),
     ComponentType System = T →
     applySystem System E args s = s) ∧
  getComponentOfEntity T E s = None.
Proof.
  intros Hnot. split; [|split].
  - intros T'. unfold removeComponentFromEntity.
    rewrite erase_if_absent by done. apply get_put_same.
  - intros Args System args <-. by apply apply_absent.
  - by apply getComponentOfEntity_None.
Qed.

(** C2.  Whatever sequence of add, remove and apply calls a caller
    makes on the freshly initialised statics, no vector ever holds two
    records with the same entity identifier. *)
Theorem one_record_per_entity (cs : list (Call El)) T :
  NoDup (getEntityIDsWithComponentView T (run cs init)).
Proof. apply run_NoDup. constructor. Qed.

(** C7.  A call instantiated at [T1] changes nothing in the vector of
    another type [T2]; adding a component of type [T1] therefore
    leaves every answer of [entityHasComponent] at [T2] as it was. *)
Theorem type_isolation T1 T2 E (c : El T1) s :
  T1 ≠ T2 →
  (∀ E', entityHasComponent T2 E' (addComponentToEntity T1 E c s) =
         entityHasComponent T2 E' s) ∧
  (∀ call : Call El, target call = T1 → get T2 (step s call) = get T2 s).
Proof.
  intros Hne. split.
  - intros E'. unfold entityHasComponent. simpl. by rewrite get_add_other.
  - intros call <-. by apply get_step_other.
Qed.

(** C9.  Removing [E]'s component deletes the records of [E] and keeps
    all the others in the order they had: the vector left is a
    subsequence of the old one that lost the records of [E] only; with
    no record of [E] it is the old vector, and with one record of [E]
    it is what stood before that record followed by what stood after. *)
Theorem remove_keeps_order T E s :
  let l := get T s in
  let l' := get T (removeComponentFromEntity T E s) in
  l' `sublist_of` l ∧
  l' = filter (λ pair, pair.1 ≠ E) l ∧
  (E ∉ l.*1 → l' = l) ∧
  (∀ l1 c l2, l = l1 ++ (E, c) :: l2 → E ∉ l1.*1 → E ∉ l2.*1 →
              l' = l1 ++ l2).
Proof.
  intros l l'. subst l'. rewrite get_remove. fold l.
  split; [apply erase_if_sublist|]. split; [|split].
  - rewrite erase_if_filter. apply list_filter_iff. intros pair.
    apply matchEntity_false.
  - apply erase_if_absent.
  - intros l1 c l2 -> H1 H2. rewrite erase_if_app. simpl.
    rewrite (proj2 (matchEntity_true T E (E, c))) by done.
    by rewrite !erase_if_absent.
Qed.

(** C10.  Applying a system to [E] keeps the length of the vector of
    its component type, the sequence of identifiers in it, every slot
    but the one the lookup of [E] leads to, and the vectors of all
    other types; in that one slot the record of [E] gets the component
    the system's call produces. *)
Theorem apply_changes_one_component {Args} (System : SystemConcept El Args)
    E (args : Args) s :
  let T := ComponentType System in
  let s' := applySystem System E args s in
  length (get T s') = length (get T s) ∧
  getEntityIDsWithComponentView T s' = getEntityIDsWithComponentView T s ∧
  (∀ i, getComponentOfEntity T E s ≠ Some i → get T s' !! i = get T s !! i) ∧
  (∀ T', T' ≠ T → get T' s' = get T' s) ∧
  (∀ p, getComponentOfEntity T E s = Some p →
        ∃ c, get T s !! p = Some (E, c) ∧
             get T s' !! p = Some (E, call System c args)).
Proof.
  intros T s'. subst s' T. rewrite get_apply.
  split; [apply length_alter|]. split; [apply ids_apply|].
  unfold getComponentOfEntity. simpl.
  set (l := get (ComponentType System) s).
  set (it := find_if (matchEntity E) l).
  split; [|split].
  - intros i Hi. unalias. rewrite list_lookup_alter.
    case_decide as Hit; [|done]. subst i.
    destruct (Nat.eqb_spec it (length l)) as [Hend|]; simpl in Hi; [|done].
    assert (l !! it = None) as Hnone by (apply lookup_ge_None_2; lia).
    by rewrite !Hnone.
  - intros T' Hne. by apply get_apply_other.
  - intros p. destruct (Nat.eqb_spec it (length l)) as [|Hne]; simpl; [done|].
    intros [= <-]. destruct (find_if_present _ E l Hne) as [c Hc].
    exists c. split; [done|]. fold it in Hc. unalias.
    by rewrite list_lookup_alter_eq, Hc.
Qed.

(** C8.  Adding components for the four entities 2, 3, 4 and 5 to an
    empty vector, in whatever order the calls are made and with whatever
    components: the view of the identifiers then yields four of them, no
    one twice, and they are 2, 3, 4 and 5; it lists them in the order of
    the calls. *)
Theorem four_entities_listed T (adds : list (Entity.IDType * El T)) s :
  get T s = [] →
  adds.*1 ≡ₚ [2; 3; 4; 5]%N →
  let s' := run ((λ pair, CallAdd T pair.1 pair.2) <$> adds) s in
  let ids := getEntityIDsWithComponentView T s' in
  length ids = 4 ∧ NoDup ids ∧ (∀ E, E ∈ ids ↔ E ∈ [2; 3; 4; 5]%N) ∧
  ids = adds.*1.
Proof.
  intros Hs Hperm s' ids.
  assert (NoDup [2; 3; 4; 5]%N) as Hnd by (by apply (bool_decide_unpack _)).
  assert (getEntityIDsWithComponentView T s = []) as Hids
    by (unfold getEntityIDsWithComponentView; by rewrite Hs).
  assert (ids = adds.*1) as ->.
  { subst ids s'. rewrite ids_add_list; rewrite Hids; [done|].
    cbn [app]. by rewrite Hperm. }
  split; [by rewrite Hperm|]. split; [by rewrite Hperm|].
  split; [|done]. intros E. by rewrite Hperm.
Qed.
End Registry.
End Spec.

(** * The program's own component and systems *)

Module Demo.
Import ECS ECSFacts.

(** The two literals are the correctly rounded quotients of the integers
    their decimals are made of. *)
Lemma lit_0_016_rounded :
  Float32.div (Float32.of_Z 16) (Float32.of_Z 1000) = Float32.lit_0_016.
Proof. reflexivity. Qed.

Lemma lit_9_81_rounded :
  Float32.div (Float32.of_Z 981) (Float32.of_Z 100) = Float32.lit_9_81.
Proof. reflexivity. Qed.

(** One call of [MoveSystem] on [Position{2, 3}] with [dt = 0.016f]. *)
Lemma move_2_3 :
  call MoveSystem (Position.mk (Float32.of_Z 2) (Float32.of_Z 3)) Float32.lit_0_016 =
  Position.mk (S754_finite false 8455717 (-22)) (S754_finite false 12650021 (-22)).
Proof. reflexivity. Qed.

(** What [main] prints for its first block: one entity, moved. *)
Example main_first_block :
  let s := applySystem MoveSystem 1%N Float32.lit_0_016 (run main_setup main_init) in
  getEntityIDsWithComponentView TPosition s = [1%N] ∧
  getComponentsView TPosition s = [0] ∧
  readComponentOfEntity TPosition 1%N s =
    Some (Position.mk (S754_finite false 8455717 (-22))
                      (S754_finite false 12650021 (-22))).
Proof. repeat split. Qed.

(** Removing entity 3 from the four of the second block closes the gap
    and leaves 2, 4 and 5 as they stood. *)
Example main_remove_middle :
  getEntityIDsWithComponentView TPosition
    (removeComponentFromEntity TPosition 3%N (run main_four main_init)) =
  [2; 4; 5]%N.
Proof. reflexivity. Qed.

(** Gravity pulls [y] only. *)
Example gravity_50_50 :
  call GravitySystem (Position.mk (Float32.of_Z 50) (Float32.of_Z 50))
    Float32.lit_0_016 =
  Position.mk (Float32.of_Z 50) (S754_finite false 13066054 (-18)).
Proof. reflexivity. Qed.

(** C6.  A vector in which the first record of [E] holds the position
    [{2, 3}], after [MoveSystem] was applied to [E] with [0.016f]: the
    vector is the old one with a new position in that record and nothing
    else changed, in the same slot, which is where the lookup of [E] led
    before and leads now; both coordinates of the new position are finite
    and less than [1e-6] away from 2.016 and 3.016; the vectors of the
    other types are untouched. *)
Theorem move_system_moves E (s : Store ComponentOf)
    (l1 l2 : list (Entity.IDType * Position.t)) :
  get TPosition s =
    l1 ++ (E, Position.mk (Float32.of_Z 2) (Float32.of_Z 3)) :: l2 →
  E ∉ l1.*1 →
  let s' := applySystem MoveSystem E Float32.lit_0_016 s in
  ∃ position,
    get TPosition s' = l1 ++ (E, position) :: l2 ∧
    getComponentOfEntity TPosition E s = Some (length l1) ∧
    getComponentOfEntity TPosition E s' = Some (length l1) ∧
    readComponentOfEntity TPosition E s' = Some position ∧
    Float32.within (1 # 1000000) (2016 # 1000) (Position.x position) ∧
    Float32.within (1 # 1000000) (3016 # 1000) (Position.y position) ∧
    ∀ T', T' ≠ TPosition → get T' s' = get T' s.
Proof.
  intros Hs Hnot s'.
  destruct (lookup_middle_record TPosition E _ l1 l2 s Hs Hnot) as (Hit & Hp & _).
  exists (Position.mk (S754_finite false 8455717 (-22))
                      (S754_finite false 12650021 (-22))).
  assert (get TPosition s' =
          l1 ++ (E, Position.mk (S754_finite false 8455717 (-22))
                                (S754_finite false 12650021 (-22))) :: l2) as Hs'.
  { pose proof (get_apply MoveSystem E Float32.lit_0_016 s) as Happ.
    change (ComponentType MoveSystem) with TPosition in Happ.
    fold s' in Happ. rewrite Happ, Hit, Hs. unalias.
    rewrite alter_app_r_alt, Nat.sub_diag by done.
    cbn [alter list_alter fst snd]. by rewrite move_2_3. }
  destruct (lookup_middle_record TPosition E _ l1 l2 s' Hs' Hnot) as (_ & Hp' & Hread').
  split; [done|]. split; [done|]. split; [done|]. split; [done|].
  split; [vm_compute; reflexivity|]. split; [vm_compute; reflexivity|].
  intros T' Hne. by apply (get_apply_other MoveSystem).
Qed.

(** Entity 1 stands third of five when [MoveSystem] is applied to it. *)
Lemma move_system_moves_witness :
  let c k := Position.mk (Float32.of_Z k) (Float32.of_Z k) in
  let l1 := [(2%N, c 5%Z); (3%N, c 10%Z)] in
  let l2 := [(4%N, c 15%Z); (5%N, c 20%Z)] in
  let s := run (take 2 main_four ++ main_setup ++ drop 2 main_four) main_init in
  get TPosition s =
    l1 ++ (1%N, Position.mk (Float32.of_Z 2) (Float32.of_Z 3)) :: l2 ∧
  (1%N ∉ l1.*1) ∧
  let s' := applySystem MoveSystem 1%N Float32.lit_0_016 s in
  ∃ position,
    get TPosition s' = l1 ++ (1%N, position) :: l2 ∧
    getComponentOfEntity TPosition 1%N s = Some (length l1) ∧
    getComponentOfEntity TPosition 1%N s' = Some (length l1) ∧
    readComponentOfEntity TPosition 1%N s' = Some position ∧
    Float32.within (1 # 1000000) (2016 # 1000) (Position.x position) ∧
    Float32.within (1 # 1000000) (3016 # 1000) (Position.y position) ∧
    ∀ T', T' ≠ TPosition → get T' s' = get T' s.
Proof.
  intros c l1 l2 s.
  assert (1%N ∉ l1.*1) as Hnot by (apply (bool_decide_unpack _); reflexivity).
  split; [reflexivity|]. split; [exact Hnot|].
  exact (move_system_moves 1%N s l1 l2 eq_refl Hnot).
Defined.

Lemma add_twice_keeps_first_witness :
  (1%N ∉ getEntityIDsWithComponentView TPosition main_init) ∧
  let c1 := Position.mk (Float32.of_Z 0) (Float32.of_Z 0) in
  let c2 := Position.mk (Float32.of_Z 2) (Float32.of_Z 3) in
  let s1 := addComponentToEntity TPosition 1%N c1 main_init in
  let s2 := addComponentToEntity TPosition 1%N c2 s1 in
  s2 = s1 ∧
  recordsOf TPosition 1%N s2 = [(1%N, c1)] ∧
  readComponentOfEntity TPosition 1%N s2 = Some c1.
Proof.
  assert (1%N ∉ getEntityIDsWithComponentView TPosition main_init)
    as Hnot by (simpl; apply not_elem_of_nil).
  split; [exact Hnot|].
  exact (Spec.add_twice_keeps_first TPosition 1%N
           (Position.mk (Float32.of_Z 0) (Float32.of_Z 0))
           (Position.mk (Float32.of_Z 2) (Float32.of_Z 3)) main_init Hnot).
Defined.

Lemma absent_is_noop_witness :
  (7%N ∉ getEntityIDsWithComponentView TPosition (run main_four main_init)) ∧
  (∀ T', get T' (removeComponentFromEntity TPosition 7%N (run main_four main_init)) =
         get T' (run main_four main_init)) ∧
  (∀ Args (System : SystemConcept ComponentOf Args) (args : Args),
     ComponentType System = TPosition →
     applySystem System 7%N args (run main_four main_init) = run main_four main_init) ∧
  getComponentOfEntity TPosition 7%N (run main_four main_init) = None.
Proof.
  assert (7%N ∉ getEntityIDsWithComponentView TPosition (run main_four main_init))
    as Hnot by (apply (bool_decide_unpack _); reflexivity).
  split; [exact Hnot|].
  exact (Spec.absent_is_noop TPosition 7%N (run main_four main_init) Hnot).
Defined.

Lemma type_isolation_witness :
  TPosition ≠ TEntity ∧
  (∀ E', entityHasComponent TEntity E'
           (addComponentToEntity TPosition 1%N
              (Position.mk (Float32.of_Z 2) (Float32.of_Z 3)) main_init) =
         entityHasComponent TEntity E' main_init) ∧
  (∀ call : Call ComponentOf, target call = TPosition →
     get TEntity (step main_init call) = get TEntity main_init).
Proof.
  assert (TPosition ≠ TEntity) as Hne by discriminate.
  split; [exact Hne|].
  exact (Spec.type_isolation TPosition TEntity 1%N
           (Position.mk (Float32.of_Z 2) (Float32.of_Z 3)) main_init Hne).
Defined.

(** The four entities of [main], added in another order than [main]'s. *)
Lemma four_entities_listed_witness :
  let c k := Position.mk (Float32.of_Z k) (Float32.of_Z k) in
  let adds := [(5%N, c 20%Z); (3%N, c 10%Z); (2%N, c 5%Z); (4%N, c 15%Z)] in
  get TPosition main_init = [] ∧
  adds.*1 ≡ₚ [2; 3; 4; 5]%N ∧
  let s' := run ((λ pair, CallAdd TPosition pair.1 pair.2) <$> adds) main_init in
  let ids := getEntityIDsWithComponentView TPosition s' in
  length ids = 4 ∧ NoDup ids ∧ (∀ E, E ∈ ids ↔ E ∈ [2; 3; 4; 5]%N) ∧
  ids = adds.*1.
Proof.
  intros c adds.
  assert (adds.*1 ≡ₚ [2; 3; 4; 5]%N) as Hperm
    by (apply (bool_decide_unpack _); reflexivity).
  split; [reflexivity|]. split; [exact Hperm|].
  exact (Spec.four_entities_listed TPosition adds main_init eq_refl Hperm).
Defined.
End Demo.

(** * Further laws of the registry *)

Module Laws.
Import Std StdFacts ECS ECSFacts.

Section Registry.
Context {Ty : Type} `{EqDecision Ty} {El : Ty → Type}.
Implicit Types (T : Ty) (s : Store El) (E : Entity.IDType).

(** ** Lookups read the first record of the entity *)

Lemma read_list T E (l : list (Entity.IDType * El T)) :
  (if negb (find_if (matchEntity (T := T) E) l =? length l)
   then snd <$> l !! find_if (matchEntity (T := T) E) l else None) =
  snd <$> head (filter (λ pair, pair.1 = E) l).
Proof.
  induction l as [|[E0 c0] l IH]; [done|]. simpl.
  unfold matchEntity at 1 3. simpl.
  destruct (N.eqb_spec E0 E) as [->|Hne].
  - by rewrite filter_cons_True.
  - rewrite filter_cons_False by done. simpl. exact IH.
Qed.

Lemma read_first T E s :
  readComponentOfEntity T E s = snd <$> head (recordsOf T E s).
Proof.
  unfold readComponentOfEntity, getComponentOfEntity, deref, recordsOf. simpl.
  rewrite <- read_list. unalias. by destruct (negb _).
Qed.

Lemma recordsOf_absent T E s :
  E ∉ getEntityIDsWithComponentView T s → recordsOf T E s = [].
Proof. apply filter_absent. Qed.

Lemma recordsOf_add T E E' (c : El T) s :
  recordsOf T E' (addComponentToEntity T E c s) =
  if decide (E ∈ getEntityIDsWithComponentView T s)
  then recordsOf T E' s
  else recordsOf T E' s ++ (if decide (E = E') then [(E, c)] else []).
Proof.
  unfold recordsOf. rewrite get_add. case_decide; [done|]. unalias.
  rewrite filter_app. by f_equal.
Qed.

Lemma filter_erase_if T E E' (l : list (Entity.IDType * El T)) :
  E' ≠ E →
  filter (λ pair, pair.1 = E') (erase_if (matchEntity (T := T) E) l) =
  filter (λ pair, pair.1 = E') l.
Proof.
  intros HE. induction l as [|[E0 c0] l IH]; [done|].
  cbn [erase_if]. unfold matchEntity at 1. cbn [fst]. unalias.
  destruct (N.eqb_spec E0 E) as [->|Hne].
  - by rewrite IH, (filter_cons_False _ (E, c0)) by (simpl; congruence).
  - rewrite !filter_cons. cbn [fst]. case_decide; by rewrite IH.
Qed.

Lemma recordsOf_remove T E E' s :
  recordsOf T E' (removeComponentFromEntity T E s) =
  if decide (E' = E) then [] else recordsOf T E' s.
Proof.
  unfold recordsOf. rewrite get_remove. case_decide as HE.
  - subst E'. apply filter_absent, ids_erase_if.
  - by apply filter_erase_if.
Qed.

Lemma entityHasComponent_decide T E s :
  entityHasComponent T E s = bool_decide (E ∈ getEntityIDsWithComponentView T s).
Proof.
  apply eq_true_iff_eq. rewrite bool_decide_eq_true.
  apply entityHasComponent_elem_of.
Qed.

Lemma fmap_erase_if T E (l : list (Entity.IDType * El T)) :
  (erase_if (matchEntity (T := T) E) l).*1 = filter (λ E', E' ≠ E) l.*1.
Proof.
  induction l as [|[E0 c0] l IH]; [done|].
  cbn [erase_if]. unfold matchEntity at 1. cbn [fst]. unalias.
  rewrite fmap_cons, filter_cons. cbn [fst].
  destruct (N.eqb_spec E0 E); case_decide; try done.
  rewrite fmap_cons. cbn [fst]. by f_equal.
Qed.

Lemma ids_remove T E s :
  getEntityIDsWithComponentView T (removeComponentFromEntity T E s) =
  filter (λ E', E' ≠ E) (getEntityIDsWithComponentView T s).
Proof.
  unfold getEntityIDsWithComponentView. rewrite get_remove.
  apply fmap_erase_if.
Qed.

Lemma read_absent T E s :
  E ∉ getEntityIDsWithComponentView T s → readComponentOfEntity T E s = None.
Proof.
  intros Hnot. apply getComponentOfEntity_None in Hnot.
  unfold readComponentOfEntity. by rewrite Hnot.
Qed.

Lemma read_present T E s :
  E ∈ getEntityIDsWithComponentView T s → is_Some (readComponentOfEntity T E s).
Proof.
  intros Hin.
  destruct (getComponentOfEntity T E s) as [p|] eqn:Hp;
    [|by apply getComponentOfEntity_None in Hp].
  destruct (getComponentOfEntity_Some _ _ _ _ Hp) as [c Hc].
  exists c. by apply (readComponentOfEntity_Some _ _ _ p).
Qed.

(** ** What a lookup returns after each operation *)

(** X1.  After [addComponentToEntity T E c], looking [E] up leads to the
    component it had before if it had one and to [c] otherwise; looking
    any other entity up leads to what it led to before. *)
Theorem lookup_after_add T E E' (c : El T) s :
  readComponentOfEntity T E' (addComponentToEntity T E c s) =
  if decide (E' = E)
  then Some (default c (readComponentOfEntity T E s))
  else readComponentOfEntity T E' s.
Proof.
  destruct (decide (E' = E)) as [->|HE'].
  - destruct (decide (E ∈ getEntityIDsWithComponentView T s)) as [Hin|Hnot].
    + rewrite add_present by done.
      by destruct (read_present _ _ _ Hin) as [c0 ->].
    + rewrite (read_absent _ _ _ Hnot). simpl.
      rewrite read_first, recordsOf_add, decide_False, decide_True by done.
      by rewrite recordsOf_absent.
  - rewrite !read_first, recordsOf_add. case_decide; [done|].
    rewrite decide_False by done. by rewrite app_nil_r.
Qed.

(** X2.  After [removeComponentFromEntity T E], looking [E] up returns the
    empty optional, and looking any other entity up leads to the component
    it led to before. *)
Theorem lookup_after_remove T E E' s :
  readComponentOfEntity T E' (removeComponentFromEntity T E s) =
  if decide (E' = E) then None else readComponentOfEntity T E' s.
Proof.
  rewrite !read_first, recordsOf_remove. by case_decide.
Qed.

Lemma filter_alter_other T E E' (f : El T → El T) i
    (l : list (Entity.IDType * El T)) :
  (∀ pair, l !! i = Some pair → pair.1 = E) → E' ≠ E →
  filter (λ pair, pair.1 = E') (alter (λ pair, (pair.1, f pair.2)) i l) =
  filter (λ pair, pair.1 = E') l.
Proof.
  intros Hi HE. revert i Hi.
  induction l as [|[E0 c0] l IH]; intros [|i] Hi; try done.
  - specialize (Hi _ eq_refl). simpl in Hi. subst E0.
    change (alter _ 0 ((E, c0) :: l)) with ((E, f c0) :: l).
    by rewrite !filter_cons_False by (simpl; congruence).
  - change (filter (λ pair, pair.1 = E')
              ((E0, c0) :: alter (λ pair, (pair.1, f pair.2)) i l) =
            filter (λ pair, pair.1 = E') ((E0, c0) :: l)).
    rewrite !filter_cons. by rewrite (IH i Hi).
Qed.

Lemma recordsOf_apply_other {Args} (System : SystemConcept El Args) E E' args s :
  E' ≠ E →
  recordsOf (ComponentType System) E' (applySystem System E args s) =
  recordsOf (ComponentType System) E' s.
Proof.
  intros HE. unfold recordsOf. rewrite get_apply. unalias.
  apply (filter_alter_other (ComponentType System) E E'
           (λ c, call System c args)); [|done].
  intros pair Hpair.
  destruct (decide (find_if (matchEntity E) (get (ComponentType System) s) =
                    length (get (ComponentType System) s))) as [Hend|Hne].
  - apply lookup_lt_Some in Hpair. unalias. lia.
  - destruct (find_if_present _ E _ Hne) as [c Hc]. unalias.
    rewrite Hc in Hpair. by injection Hpair as <-.
Qed.

(** X3.  After [applySystem<System>(E, args)], looking [E] up in the
    system's component type leads to the result of the system's call on
    the component it led to before (and to nothing if it led to nothing);
    looking any other entity up leads to what it led to before. *)
Theorem lookup_after_apply {Args} (System : SystemConcept El Args) E E' args s :
  readComponentOfEntity (ComponentType System) E' (applySystem System E args s) =
  if decide (E' = E)
  then (λ c, call System c args) <$> readComponentOfEntity (ComponentType System) E s
  else readComponentOfEntity (ComponentType System) E' s.
Proof.
  case_decide as HE; [subst E'; apply read_apply|].
  by rewrite !read_first, recordsOf_apply_other.
Qed.

(** ** Which entities have a component after each operation *)

(** X4.  [entityHasComponent] after an operation on [E]: adding makes it
    true for [E] and changes it for nobody else, removing makes it false
    for [E] and changes it for nobody else, and applying a system changes
    it for nobody, in any component type. *)
Theorem has_after_operation {Args} T (System : SystemConcept El Args)
    E E' (c : El T) (args : Args) s :
  entityHasComponent T E' (addComponentToEntity T E c s) =
    (N.eqb E' E || entityHasComponent T E' s) ∧
  entityHasComponent T E' (removeComponentFromEntity T E s) =
    (negb (N.eqb E' E) && entityHasComponent T E' s) ∧
  entityHasComponent T E' (applySystem System E args s) =
    entityHasComponent T E' s.
Proof.
  rewrite !entityHasComponent_decide, ids_add, ids_remove, ids_apply.
  split; [|split; [|done]]; apply eq_true_iff_eq.
  - rewrite orb_true_iff, !bool_decide_eq_true, N.eqb_eq.
    case_decide as Hin.
    + split; [tauto|]. intros [->|?]; done.
    + rewrite elem_of_app, list_elem_of_singleton. tauto.
  - rewrite andb_true_iff, negb_true_iff, !bool_decide_eq_true, N.eqb_neq.
    rewrite list_elem_of_filter. tauto.
Qed.

(** X5.  The identifier view lists entities in the order they were added:
    adding an entity that has no component of the type puts it last and
    adding one that has changes nothing; removing an entity takes it out
    and keeps the others in order. *)
Theorem id_view_after_operation T E (c : El T) s :
  getEntityIDsWithComponentView T (addComponentToEntity T E c s) =
    (if entityHasComponent T E s
     then getEntityIDsWithComponentView T s
     else getEntityIDsWithComponentView T s ++ [E]) ∧
  getEntityIDsWithComponentView T (removeComponentFromEntity T E s) =
    filter (λ E', E' ≠ E) (getEntityIDsWithComponentView T s).
Proof.
  split; [|apply ids_remove].
  rewrite ids_add, entityHasComponent_decide.
  case_decide; [by rewrite bool_decide_true | by rewrite bool_decide_false].
Qed.

(** X6.  Adding a component for the same entity a second time never
    changes the store, whatever the store was before the first call. *)
Theorem add_again_noop T E (c1 c2 : El T) s :
  addComponentToEntity T E c2 (addComponentToEntity T E c1 s) =
  addComponentToEntity T E c1 s.
Proof.
  apply add_present. rewrite ids_add. case_decide; [done|].
  apply elem_of_app. right. by apply list_elem_of_singleton.
Qed.

(** X7.  Removing what was just added restores every vector, provided the
    entity had no component of that type before. *)
Theorem add_then_remove T E (c : El T) s :
  E ∉ getEntityIDsWithComponentView T s →
  ∀ T', get T' (removeComponentFromEntity T E (addComponentToEntity T E c s)) =
        get T' s.
Proof.
  intros Hnot T'. destruct (decide (T = T')) as [<-|Hne].
  - rewrite get_remove, get_add, decide_False by done.
    rewrite erase_if_app, erase_if_absent by done. simpl.
    rewrite (proj2 (matchEntity_true T E (E, c))) by done.
    apply app_nil_r.
  - by rewrite get_remove_other, get_add_other.
Qed.

(** ** The two views and the lookup agree *)

Lemma find_if_NoDup T E (c : El T) i (l : list (Entity.IDType * El T)) :
  NoDup l.*1 → l !! i = Some (E, c) → find_if (matchEntity (T := T) E) l = i.
Proof.
  revert i. induction l as [|[E0 c0] l IH]; intros i Hnd Hi; [done|].
  rewrite fmap_cons in Hnd. apply NoDup_cons in Hnd as [Hnot Hnd].
  cbn [find_if]. unfold matchEntity at 1. cbn [fst] in *.
  destruct i as [|i]; simpl in Hi.
  - injection Hi as -> ->. by rewrite N.eqb_refl.
  - destruct (N.eqb_spec E0 E) as [->|Hne].
    + exfalso. apply Hnot, list_elem_of_fmap. exists (E, c).
      split; [done|]. by apply list_elem_of_lookup_2 in Hi.
    + f_equal. by apply IH.
Qed.

Lemma getComponentOfEntity_NoDup T E (c : El T) i s :
  NoDup (getEntityIDsWithComponentView T s) →
  get T s !! i = Some (E, c) →
  getComponentOfEntity T E s = Some i.
Proof.
  intros Hnd Hi. unfold getComponentOfEntity. simpl.
  rewrite (find_if_NoDup T E c i (get T s) Hnd Hi).
  apply lookup_lt_Some in Hi.
  destruct (Nat.eqb_spec i (length (get T s))); [unalias; lia|done].
Qed.

Lemma getComponentsView_seq T s :
  getComponentsView T s = seq 0 (length (getEntityIDsWithComponentView T s)).
Proof.
  unfold getComponentsView, getEntityIDsWithComponentView.
  rewrite length_fmap. unalias.
  etrans; [apply (imap_seq_0 (get T s) (λ i, i))|]. apply list_fmap_id.
Qed.

(** X8.  In every store a caller can reach from the empty statics, walking
    the identifier view and looking each identifier up returns the pointers
    of the component view, one by one and in the same order; so the
    components read through either route are the same sequence. *)
Theorem views_agree_with_lookup (cs : list (Call El)) T :
  let s := run cs init in
  (λ E, getComponentOfEntity T E s) <$> getEntityIDsWithComponentView T s =
    Some <$> getComponentsView T s ∧
  (λ E, readComponentOfEntity T E s) <$> getEntityIDsWithComponentView T s =
    (λ p, deref T p s) <$> getComponentsView T s.
Proof.
  intros s. pose proof (run_NoDup cs T init (NoDup_nil_2)) as Hnd. fold s in Hnd.
  assert (∀ i E c, get T s !! i = Some (E, c) →
                   getComponentOfEntity T E s = Some i) as Hptr
    by (intros i E c; by apply getComponentOfEntity_NoDup).
  unfold getEntityIDsWithComponentView, getComponentsView, readComponentOfEntity.
  split; apply list_eq; intros i; unalias;
    rewrite !list_lookup_fmap, list_lookup_imap;
    destruct (get T s !! i) as [[E c]|] eqn:Hi; unalias; rewrite Hi;
    simpl; try done; by rewrite (Hptr i E c Hi).
Qed.

(** ** Pointers across operations *)

(** X9.  [applySystem] moves no record: for every component type and
    entity the lookup returns the pointer it returned before the call, and
    the component view hands out the pointers it handed out before. *)
Theorem apply_keeps_pointers {Args} (System : SystemConcept El Args)
    T E E' (args : Args) s :
  getComponentOfEntity T E' (applySystem System E args s) =
    getComponentOfEntity T E' s ∧
  getComponentsView T (applySystem System E args s) = getComponentsView T s.
Proof.
  split.
  - apply getComponentOfEntity_ids, ids_apply.
  - by rewrite !getComponentsView_seq, ids_apply.
Qed.

Lemma find_if_app {A} (pred : A → bool) (l1 l2 : list A) :
  find_if pred (l1 ++ l2) =
  if decide (find_if pred l1 = length l1)
  then length l1 + find_if pred l2 else find_if pred l1.
Proof.
  induction l1 as [|a l1 IH]; [done|]. cbn [app find_if length].
  destruct (pred a); [done|]. rewrite IH.
  repeat case_decide; lia.
Qed.

(** Taking the one record of [E] out from between [l1] and [l2]: where
    another entity is found afterwards. *)
Lemma find_if_without T E E' (c : El T) (l1 l2 : list (Entity.IDType * El T)) :
  E' ≠ E →
  find_if (matchEntity (T := T) E') (l1 ++ (E, c) :: l2) ≠
    length (l1 ++ (E, c) :: l2) →
  find_if (matchEntity (T := T) E') (l1 ++ l2) ≠ length (l1 ++ l2) ∧
  find_if (matchEntity (T := T) E') (l1 ++ l2) =
    if decide (find_if (matchEntity (T := T) E') (l1 ++ (E, c) :: l2) < length l1)
    then find_if (matchEntity (T := T) E') (l1 ++ (E, c) :: l2)
    else pred (find_if (matchEntity (T := T) E') (l1 ++ (E, c) :: l2)).
Proof.
  intros HE. rewrite !find_if_app, !length_app. cbn [find_if length].
  rewrite (proj2 (matchEntity_false T E' (E, c))) by (simpl; congruence).
  pose proof (find_if_le (matchEntity (T := T) E') l1).
  pose proof (find_if_le (matchEntity (T := T) E') l2).
  unalias. repeat case_decide; lia.
Qed.

(** X10.  Removing [E]'s component when every entity has at most one:
    another entity's pointer stays what it was if its record stood before
    [E]'s, and is one slot lower if it stood after. *)
Theorem remove_moves_pointers T E E' p p' s :
  NoDup (getEntityIDsWithComponentView T s) →
  getComponentOfEntity T E s = Some p →
  getComponentOfEntity T E' s = Some p' →
  E' ≠ E →
  getComponentOfEntity T E' (removeComponentFromEntity T E s) =
  Some (if decide (p' < p) then p' else pred p').
Proof.
  intros Hnd Hp Hp' HE.
  destruct (getComponentOfEntity_Some _ _ _ _ Hp) as [c Hc].
  pose proof (take_drop_middle _ _ _ Hc) as Hl.
  pose proof (lookup_lt_Some _ _ _ Hc) as Hlt.
  set (l1 := take p (get T s)) in *. set (l2 := drop (S p) (get T s)) in *.
  assert (length l1 = p) as Hl1
    by (subst l1; rewrite length_take; unalias; lia).
  unfold getEntityIDsWithComponentView in Hnd.
  rewrite <- Hl, fmap_app, fmap_cons in Hnd.
  apply NoDup_app in Hnd as (_ & Hnot1 & [Hnot2 _]%NoDup_cons).
  assert (E ∉ l1.*1) as Hnot1' by (intros Hin; apply (Hnot1 _ Hin), list_elem_of_here).
  assert (get T (removeComponentFromEntity T E s) = l1 ++ l2) as Hrem.
  { rewrite get_remove, <- Hl, erase_if_app. cbn [erase_if].
    rewrite (proj2 (matchEntity_true T E (E, c))) by done.
    by rewrite !erase_if_absent. }
  apply getComponentOfEntity_find_if in Hp' as Hfind.
  assert (find_if (matchEntity E') (get T s) ≠ length (get T s)) as Hsome.
  { intros Hend. apply find_if_absent, getComponentOfEntity_None in Hend.
    congruence. }
  rewrite <- Hl in Hfind, Hsome.
  destruct (find_if_without T E E' c l1 l2 HE Hsome) as [Hne Heq].
  unfold getComponentOfEntity. cbn zeta. rewrite Hrem.
  subst l1 l2. unalias. rewrite <- Hfind, Hl1 in Heq.
  rewrite (proj2 (Nat.eqb_neq _ _) Hne). cbn [negb]. by f_equal.
Qed.

(** ** Removing *)

Lemma erase_if_comm {A} (p q : A → bool) (l : list A) :
  erase_if p (erase_if q l) = erase_if q (erase_if p l).
Proof.
  induction l as [|a l IH]; [done|]. cbn [erase_if].
  destruct (p a) eqn:Hp, (q a) eqn:Hq; cbn [erase_if];
    rewrite ?Hp, ?Hq, IH; done.
Qed.

Lemma erase_if_idemp {A} (p : A → bool) (l : list A) :
  erase_if p (erase_if p l) = erase_if p l.
Proof. apply erase_if_none, erase_if_Forall. Qed.

(** X11.  Removals commute, across entities and component types, and
    removing the same component twice is the same as removing it once:
    every vector ends up the same. *)
Theorem remove_remove T1 T2 E1 E2 s T' :
  get T' (removeComponentFromEntity T1 E1 (removeComponentFromEntity T2 E2 s)) =
    get T' (removeComponentFromEntity T2 E2 (removeComponentFromEntity T1 E1 s)) ∧
  get T' (removeComponentFromEntity T1 E1 (removeComponentFromEntity T1 E1 s)) =
    get T' (removeComponentFromEntity T1 E1 s).
Proof.
  split.
  - destruct (decide (T1 = T')) as [e1|Hne1], (decide (T2 = T')) as [e2|Hne2];
      subst;
      rewrite ?get_remove, ?get_remove_other, ?get_remove, ?get_remove_other by done;
      try done.
    apply erase_if_comm.
  - destruct (decide (T1 = T')) as [<-|Hne1].
    + rewrite !get_remove. apply erase_if_idemp.
    + by rewrite !get_remove_other.
Qed.

Lemma remove_all T (es : list Entity.IDType) s :
  (∀ E, E ∈ getEntityIDsWithComponentView T s → E ∈ es) →
  get T (run (CallRemove T <$> es) s) = [].
Proof.
  revert s. induction es as [|e es IH]; intros s Hsub.
  - simpl. unfold getEntityIDsWithComponentView in Hsub.
    destruct (get T s) as [|[E c] l]; [done|].
    exfalso. apply (not_elem_of_nil E), Hsub. rewrite fmap_cons. apply list_elem_of_here.
  - rewrite fmap_cons. change (run (?c :: ?k) s) with (run k (step s c)).
    apply IH. cbn [step]. intros E. rewrite ids_remove, list_elem_of_filter.
    intros [Hne Hin]. specialize (Hsub _ Hin).
    apply elem_of_cons in Hsub as [?|?]; done.
Qed.

(** X12.  Removing the component of every entity the identifier view
    lists, in the order it lists them, leaves the vector empty, whatever
    the store was. *)
Theorem remove_all_listed T s :
  get T (run (CallRemove T <$> getEntityIDsWithComponentView T s) s) = [].
Proof. by apply remove_all. Qed.

(** ** How many entities the view lists *)

Lemma length_filter_NoDup (E : Entity.IDType) (l : list Entity.IDType) :
  NoDup l →
  length (filter (λ E', E' ≠ E) l) =
  length l - (if bool_decide (E ∈ l) then 1 else 0).
Proof.
  induction 1 as [|E0 l Hnot Hnd IH]; [done|].
  rewrite filter_cons. destruct (decide (E0 = E)) as [->|Hne].
  - rewrite decide_False by tauto.
    rewrite bool_decide_true by apply list_elem_of_here.
    rewrite IH, bool_decide_false by done. cbn [length]. lia.
  - rewrite decide_True by done. cbn [length]. rewrite IH.
    destruct (decide (E ∈ l)) as [Hin|Hnin].
    + rewrite (bool_decide_true _ Hin).
      rewrite (bool_decide_true _ (list_elem_of_further _ E0 _ Hin)).
      destruct l; [by apply not_elem_of_nil in Hin|]. cbn [length]. lia.
    + assert (E ∉ E0 :: l) as Hnin' by (apply not_elem_of_cons; split; congruence).
      rewrite (bool_decide_false _ Hnin), (bool_decide_false _ Hnin'). lia.
Qed.

(** X13.  In every store a caller can reach from the empty statics, the
    number of entities the view lists grows by one when a component is
    added for an entity that has none and stays otherwise, and shrinks by
    one when the component of an entity that has one is removed and stays
    otherwise. *)
Theorem size_after_operation (cs : list (Call El)) T E (c : El T) :
  let s := run cs init in
  let size s := length (getEntityIDsWithComponentView T s) in
  size (addComponentToEntity T E c s) =
    size s + (if entityHasComponent T E s then 0 else 1) ∧
  size (removeComponentFromEntity T E s) =
    size s - (if entityHasComponent T E s then 1 else 0).
Proof.
  intros s size. subst size. cbn beta.
  pose proof (run_NoDup cs T init NoDup_nil_2) as Hnd. fold s in Hnd.
  rewrite ids_add, ids_remove, entityHasComponent_decide.
  rewrite (length_filter_NoDup _ _ Hnd). split; [|done].
  case_decide.
  - rewrite bool_decide_true by done. lia.
  - rewrite bool_decide_false, length_app by done. simpl. lia.
Qed.
End Registry.
End Laws.

(** * The program's systems at a zero time step, and the laws at [main]'s stores *)

Module DemoLaws.
Import ECS ECSFacts.

(** X14.  [GravitySystem] with [dt = 0.0f] leaves every position as it
    is, whatever its coordinates (zeros of either sign, infinities and NaN
    included). *)
Theorem gravity_zero_step (position : Position.t) :
  call GravitySystem position (S754_zero false) = position.
Proof.
  destruct position as [x y]. unfold call, GravitySystem. cbn [Position.x Position.y].
  f_equal. by destruct y as [[]|[]| |[] m e].
Qed.

(** X15.  [MoveSystem] with [dt = 0.0f] leaves a position as it is when
    neither coordinate is the negative zero. *)
Theorem move_zero_step (position : Position.t) :
  Position.x position ≠ S754_zero true →
  Position.y position ≠ S754_zero true →
  call MoveSystem position (S754_zero false) = position.
Proof.
  destruct position as [x y]. cbn [Position.x Position.y]. intros Hx Hy.
  unfold call, MoveSystem. cbn [Position.x Position.y].
  f_equal; [destruct x as [[]|[]| |[] m e] | destruct y as [[]|[]| |[] m e]];
    done.
Qed.

Lemma move_zero_step_witness :
  Float32.of_Z 2 ≠ S754_zero true ∧
  Float32.of_Z 3 ≠ S754_zero true ∧
  call MoveSystem (Position.mk (Float32.of_Z 2) (Float32.of_Z 3)) (S754_zero false) =
    Position.mk (Float32.of_Z 2) (Float32.of_Z 3).
Proof.
  assert (Float32.of_Z 2 ≠ S754_zero true) as H2 by discriminate.
  assert (Float32.of_Z 3 ≠ S754_zero true) as H3 by discriminate.
  split; [exact H2|]. split; [exact H3|].
  exact (move_zero_step (Position.mk (Float32.of_Z 2) (Float32.of_Z 3)) H2 H3).
Defined.

(** The exception is real: a negative zero comes back positive. *)
Example move_zero_step_negative_zero :
  call MoveSystem (Position.mk (S754_zero true) (Float32.of_Z 3)) (S754_zero false) =
  Position.mk (S754_zero false) (Float32.of_Z 3).
Proof. reflexivity. Qed.

Lemma add_then_remove_witness :
  (1%N ∉ getEntityIDsWithComponentView TPosition main_init) ∧
  ∀ T', get T' (removeComponentFromEntity TPosition 1%N
                  (addComponentToEntity TPosition 1%N
                     (Position.mk (Float32.of_Z 0) (Float32.of_Z 0)) main_init)) =
        get T' main_init.
Proof.
  assert (1%N ∉ getEntityIDsWithComponentView TPosition main_init) as Hnot
    by apply not_elem_of_nil.
  split; [exact Hnot|].
  exact (Laws.add_then_remove TPosition 1%N
           (Position.mk (Float32.of_Z 0) (Float32.of_Z 0)) main_init Hnot).
Defined.

Lemma remove_moves_pointers_witness :
  NoDup (getEntityIDsWithComponentView TPosition (run main_four main_init)) ∧
  getComponentOfEntity TPosition 3%N (run main_four main_init) = Some 1 ∧
  getComponentOfEntity TPosition 5%N (run main_four main_init) = Some 3 ∧
  5%N ≠ 3%N ∧
  getComponentOfEntity TPosition 5%N
    (removeComponentFromEntity TPosition 3%N (run main_four main_init)) =
  Some (if decide (3 < 1) then 3 else pred 3).
Proof.
  assert (NoDup (getEntityIDsWithComponentView TPosition (run main_four main_init)))
    as Hnd by (apply (bool_decide_unpack _); reflexivity).
  assert (5%N ≠ 3%N) as Hne by discriminate.
  split; [exact Hnd|]. split; [reflexivity|]. split; [reflexivity|].
  split; [exact Hne|].
  exact (Laws.remove_moves_pointers TPosition 3%N 5%N 1 3
           (run main_four main_init) Hnd eq_refl eq_refl Hne).
Defined.
End DemoLaws.
